(** * The Redis cache gateway of [Backend/utils/redisClient.js]

    A shallow embedding of the module: its two module-level variables
    ([redisClient], [redisAvailable]), [initRedis], the listeners it
    registers on the driver, the six operations returned by
    [getRedisClient], and the signal hooks.  The driver (ioredis and the
    server behind it) is not part of the module; it is a parameter, the
    class [Transport]. *)

From stdpp Require Import base option list strings gmap.
From Stdlib Require Import ZArith.

Set Warnings "-register-all".

Local Open Scope Z_scope.

(** ** JavaScript values that cross the module boundary *)

Inductive value : Type :=
  | VUndefined
  | VNull
  | VBool (b : bool)
  | VNum (n : Z)
  | VStr (s : string)
  | VArr (items : list value).

(** [a === b] where [b] is a string literal: only a string with the same
    characters is strictly equal to it. *)
Definition strict_eq_str (a : value) (lit : string) : bool :=
  match a with
  | VStr s => String.eqb s lit
  | _ => false
  end.

(** [a || b] on an environment entry: [undefined] and the empty string
    are falsy. *)
Definition or_default (a : option string) (b : value) : value :=
  match a with
  | None => b
  | Some s => if String.eqb s "" then b else VStr s
  end.

(** ** The driver interface *)

(** Commands the module sends through the client object. *)
Inductive command : Type :=
  | GET (key : string)
  | SETEX (key : string) (seconds : Z) (val : string)
  | DEL (key : string)
  | MGET (keys : list string)
  | MSET (keyValuePairs : list (string * string))
  | PING
  | QUIT.

(** How an awaited driver promise settles. *)
Inductive outcome : Type :=
  | Resolved (reply : value)
  | Rejected (message : string).

(** The driver: its own state [conn], how a command issued in that state
    settles, and whether [connect()] throws on the spot. *)
Class Transport : Type := {
  conn : Type;
  exec : command -> conn -> outcome * conn;
  begin_connect : conn -> option string * conn
}.

(** The [status] field of the client object. *)
Inductive conn_status : Type :=
  | Wait | Connecting | Connect | Ready | Reconnecting | Close | End.

(** Event names the module subscribes to. *)
Inductive event_name : Type :=
  | on_error | on_connect | on_ready | on_close | on_reconnecting.

#[global] Instance event_name_eq_dec : EqDecision event_name.
Proof. solve_decision. Defined.

#[global] Instance conn_status_eq_dec : EqDecision conn_status.
Proof. solve_decision. Defined.

(** The five arrow functions handed to [redisClient.on], as closures over
    the module variables (defunctionalised; their bodies are
    [run_listener] below). *)
Inductive listener : Type :=
  | error_listener | connect_listener | ready_listener
  | close_listener | reconnecting_listener.

(** ** [retryStrategy] *)

(** [(times) => { const delay = Math.min(times * 50, 2000); return delay; }] *)
Definition retryStrategy (times : Z) : value :=
  let delay := Z.min (times * 50) 2000 in
  VNum delay.

(** The driver's reading of a retry strategy's result: it schedules a
    reconnect after that many milliseconds when the result is a number
    and gives up reconnecting on anything else. *)
Definition stops_retrying (result : value) : bool :=
  match result with
  | VNum _ => false
  | _ => true
  end.

Definition retry_delay (result : value) : option Z :=
  match result with
  | VNum d => Some d
  | _ => None
  end.

(** ** Options, client object, console, driver calls *)

Record options : Type := Options {
  host : value;
  port : value;
  retry : Z -> value;
  maxRetriesPerRequest : Z;
  lazyConnect : bool;
  keepAlive : Z;
  connectTimeout : Z;
  commandTimeout : Z;
  enableOfflineQueue : bool
}.

Record client : Type := Client {
  status : conn_status;
  registered : list (event_name * listener)
}.

(** Lines written with [console.log] / [console.error]. *)
Inductive diag : Type :=
  | client_error (message : string)
  | connected_msg
  | ready_msg
  | closed_msg
  | reconnecting_msg
  | connect_failed (message : string)
  | init_failed (message : string)
  | op_error (operation : string) (message : string)
  | quit_done
  | quit_error (message : string).

(** Every call the module makes on the driver, oldest first. *)
Inductive api_call : Type :=
  | new_Redis (o : options)
  | client_on (e : event_name) (l : listener)
  | client_connect
  | client_send (c : command).

(** How a function body completes: with a value, or by throwing. *)
Inductive completion (A : Type) : Type :=
  | Normal (a : A)
  | Throw (message : string).
Arguments Normal {A} a.
Arguments Throw {A} message.

(** ** Module state *)

Record world `{Transport} : Type := World {
  env : gmap string string;
  redisClient : option client;
  redisAvailable : bool;
  console : list diag;
  wire : list api_call;
  link : conn
}.

Section Gateway.
Context `{Tr : Transport}.

(** State at module load: [let redisClient; let redisAvailable = false;]. *)
Definition boot (e : gmap string string) (t : conn) : world :=
  World _ e None false [] [] t.

Definition with_client (c : option client) (w : world) : world :=
  World _ (env w) c (redisAvailable w) (console w) (wire w) (link w).
Definition with_available (b : bool) (w : world) : world :=
  World _ (env w) (redisClient w) b (console w) (wire w) (link w).
Definition with_console (d : list diag) (w : world) : world :=
  World _ (env w) (redisClient w) (redisAvailable w) d (wire w) (link w).
Definition with_wire (l : list api_call) (w : world) : world :=
  World _ (env w) (redisClient w) (redisAvailable w) (console w) l (link w).
Definition with_link (t : conn) (w : world) : world :=
  World _ (env w) (redisClient w) (redisAvailable w) (console w) (wire w) t.

(** ** A state-and-exception monad for function bodies *)

Definition M (A : Type) : Type := world -> completion A * world.

Definition ret {A} (a : A) : M A := fun w => (Normal a, w).
Definition throw {A} (message : string) : M A := fun w => (Throw message, w).
Definition bind {A B} (m : M A) (k : A -> M B) : M B :=
  fun w => match m w with
           | (Normal a, w') => k a w'
           | (Throw e, w') => (Throw e, w')
           end.
(** [try { body } catch (err) { handler }] *)
Definition try_catch {A} (body : M A) (handler : string -> M A) : M A :=
  fun w => match body w with
           | (Normal a, w') => (Normal a, w')
           | (Throw e, w') => handler e w'
           end.

Definition read {A} (f : world -> A) : M A := fun w => (Normal (f w), w).
Definition write (f : world -> world) : M unit := fun w => (Normal tt, f w).

End Gateway.

Declare Scope gateway_scope.
Delimit Scope gateway_scope with gw.
Notation "x <- m ;; k" := (bind m (fun x => k))
  (at level 100, m at next level, right associativity) : gateway_scope.
Notation "m ;;; k" := (bind m (fun _ => k))
  (at level 100, right associativity) : gateway_scope.

Section Client.
Context `{Tr : Transport}.
Local Open Scope gateway_scope.

Definition log (d : diag) : M unit :=
  write (fun w => with_console (console w ++ [d]) w).

(** Truthiness of [redisClient]. *)
Definition truthy (c : option client) : bool :=
  match c with
  | Some _ => true
  | None => false
  end.

(** ** Calls on the driver *)

(** [new Redis(o)]: allocates the client object; with [lazyConnect] it
    stays in status [wait] until [connect()] is called. *)
Definition construct (o : options) : M client :=
  write (fun w => with_wire (wire w ++ [new_Redis o]) w) ;;;
  ret (Client (if lazyConnect o then Wait else Connecting) []).

(** [redisClient.on(e, l)]: appends the listener to the client object. *)
Definition on (e : event_name) (l : listener) : M unit :=
  cl <- read redisClient ;;
  match cl with
  | None => throw "TypeError: Cannot read properties of undefined"
  | Some c =>
      write (fun w =>
        with_wire (wire w ++ [client_on e l])
          (with_client (Some (Client (status c) (registered c ++ [(e, l)]))) w))
  end.

(** [redisClient.connect()]: either throws on the spot or starts the
    attempt and returns a pending promise. *)
Definition connect : M unit :=
  fun w =>
    match redisClient w with
    | None => (Throw "TypeError: Cannot read properties of undefined", w)
    | Some c =>
        let '(r, t') := begin_connect (link w) in
        let w1 := with_link t' (with_wire (wire w ++ [client_connect]) w) in
        match r with
        | Some message => (Throw message, w1)
        | None =>
            (Normal tt, with_client (Some (Client Connecting (registered c))) w1)
        end
    end.

(** The world once command [c] has gone out and left the driver in [t']. *)
Definition sent (c : command) (t' : conn) (w : world) : world :=
  with_link t' (with_wire (wire w ++ [client_send c]) w).

(** [await redisClient.<command>(...)]: one round trip on the driver. *)
Definition send (c : command) : M value :=
  fun w =>
    match redisClient w with
    | None => (Throw "TypeError: Cannot read properties of undefined", w)
    | Some _ =>
        let '(o, t') := exec c (link w) in
        match o with
        | Resolved v => (Normal v, sent c t' w)
        | Rejected message => (Throw message, sent c t' w)
        end
    end.

(** ** Listeners (lines 27-50) and the rejection callback (lines 53-56) *)

Definition run_listener (l : listener) (arg : string) : M unit :=
  match l with
  | error_listener => log (client_error arg) ;;; write (with_available false)
  | connect_listener => log connected_msg ;;; write (with_available true)
  | ready_listener => log ready_msg ;;; write (with_available true)
  | close_listener => log closed_msg ;;; write (with_available false)
  | reconnecting_listener =>
      log reconnecting_msg ;;; write (with_available false)
  end.

Definition connect_rejected (message : string) : M unit :=
  log (connect_failed message) ;;; write (with_available false).

(** ** [initRedis] (lines 7-63) *)

Definition redisOptions (e : gmap string string) : options :=
  {| host := or_default (e !! "REDIS_HOST") (VStr "localhost");
     port := or_default (e !! "REDIS_PORT") (VNum 6379);
     retry := retryStrategy;
     maxRetriesPerRequest := 3;
     lazyConnect := true;
     keepAlive := 30000;
     connectTimeout := 10000;
     commandTimeout := 5000;
     enableOfflineQueue := false |}.

Definition initRedis : M unit :=
  cl <- read redisClient ;;
  if negb (truthy cl) then
    try_catch
      (e <- read env ;;
       c <- construct (redisOptions e) ;;
       write (with_client (Some c)) ;;;
       on on_error error_listener ;;;
       on on_connect connect_listener ;;;
       on on_ready ready_listener ;;;
       on on_close close_listener ;;;
       on on_reconnecting reconnecting_listener ;;;
       connect)
      (fun err => log (init_failed err) ;;; write (with_available false))
  else ret tt.

(** ** Events delivered by the driver *)

Inductive event : Type :=
  | ev_error (message : string)
  | ev_connect
  | ev_ready
  | ev_close
  | ev_reconnecting.

Definition event_name_of (e : event) : event_name :=
  match e with
  | ev_error _ => on_error
  | ev_connect => on_connect
  | ev_ready => on_ready
  | ev_close => on_close
  | ev_reconnecting => on_reconnecting
  end.

Definition event_arg (e : event) : string :=
  match e with
  | ev_error message => message
  | _ => ""
  end.

(** The driver names its lifecycle events after the status it entered
    when it queued them; [error] is emitted without a status change.
    This is the status at the delivery of the event when the driver has
    made no further change in between (after [close] it usually has:
    see [timeline] below, where status changes and deliveries are
    separate steps). *)
Definition status_after (e : event) (s : conn_status) : conn_status :=
  match e with
  | ev_error _ => s
  | ev_connect => Connect
  | ev_ready => Ready
  | ev_close => Close
  | ev_reconnecting => Reconnecting
  end.

Fixpoint run_listeners (ls : list (event_name * listener)) (e : event)
  : M unit :=
  match ls with
  | [] => ret tt
  | (n, l) :: rest =>
      (if decide (n = event_name_of e) then run_listener l (event_arg e)
       else ret tt) ;;;
      run_listeners rest e
  end.

(** A status change and the delivery of its event taken as one step:
    the driver enters the status and calls the listeners registered for
    the event, in registration order. *)
Definition emit (e : event) : M unit :=
  cl <- read redisClient ;;
  match cl with
  | None => ret tt
  | Some c =>
      write (with_client (Some (Client (status_after e (status c)) (registered c)))) ;;;
      run_listeners (registered c) e
  end.

(** ** The object returned by [getRedisClient] (lines 65-143) *)

(** The [catch] block shared, up to the operation name and the value
    returned, by the six operations. *)
Definition recover (operation : string) (fallback : value) (err : string)
  : M value :=
  log (op_error operation err) ;;;
  write (with_available false) ;;;
  ret fallback.

Definition isAvailable : M bool :=
  avail <- read redisAvailable ;;
  cl <- read redisClient ;;
  ret (avail && match cl with
                | Some c => bool_decide (status c = Ready)
                | None => false
                end).

Definition get (key : string) : M value :=
  avail <- read redisAvailable ;;
  cl <- read redisClient ;;
  if negb avail || negb (truthy cl) then ret VNull
  else
    try_catch
      (result <- send (GET key) ;; ret result)
      (recover "get" VNull).

Definition setex (key : string) (seconds : Z) (val : string) : M value :=
  avail <- read redisAvailable ;;
  cl <- read redisClient ;;
  if negb avail || negb (truthy cl) then ret (VBool false)
  else
    try_catch
      (send (SETEX key seconds val) ;;; ret (VBool true))
      (recover "setex" (VBool false)).

Definition del (key : string) : M value :=
  avail <- read redisAvailable ;;
  cl <- read redisClient ;;
  if negb avail || negb (truthy cl) then ret (VBool false)
  else
    try_catch
      (send (DEL key) ;;; ret (VBool true))
      (recover "del" (VBool false)).

Definition mget (keys : list string) : M value :=
  avail <- read redisAvailable ;;
  cl <- read redisClient ;;
  if negb avail || negb (truthy cl) || (length keys =? 0)%nat
  then ret (VArr [])
  else
    try_catch
      (send (MGET keys))
      (recover "mget" (VArr [])).

Definition mset (keyValuePairs : list (string * string)) : M value :=
  avail <- read redisAvailable ;;
  cl <- read redisClient ;;
  if negb avail || negb (truthy cl) || (length keyValuePairs =? 0)%nat
  then ret (VBool false)
  else
    try_catch
      (send (MSET keyValuePairs) ;;; ret (VBool true))
      (recover "mset" (VBool false)).

Definition ping : M value :=
  avail <- read redisAvailable ;;
  cl <- read redisClient ;;
  if negb avail || negb (truthy cl) then ret (VBool false)
  else
    try_catch
      (result <- send PING ;; ret (VBool (strict_eq_str result "PONG")))
      (recover "ping" (VBool false)).

(** The object literal [getRedisClient] returns: [client] holds the
    value [redisClient] has at the time of the call; the methods close
    over the module variables and read them when they run. *)
Record handle : Type := Handle {
  handle_client : option client;
  handle_isAvailable : M bool;
  handle_get : string -> M value;
  handle_setex : string -> Z -> string -> M value;
  handle_del : string -> M value;
  handle_mget : list string -> M value;
  handle_mset : list (string * string) -> M value;
  handle_ping : M value
}.

Definition getRedisClient : M handle :=
  cl <- read redisClient ;;
  ret (Handle cl isAvailable get setex del mget mset ping).

(** ** Signal hooks (lines 146-166; the two bodies are identical) *)

Definition on_signal : M unit :=
  cl <- read redisClient ;;
  if truthy cl then
    try_catch
      (send QUIT ;;; log quit_done)
      (fun err => log (quit_error err))
  else ret tt.

End Client.

(** ** The public operations as data *)

Inductive op : Type :=
  | op_get (key : string)
  | op_setex (key : string) (seconds : Z) (val : string)
  | op_del (key : string)
  | op_mget (keys : list string)
  | op_mset (keyValuePairs : list (string * string))
  | op_ping.

Definition op_name (o : op) : string :=
  match o with
  | op_get _ => "get"
  | op_setex _ _ _ => "setex"
  | op_del _ => "del"
  | op_mget _ => "mget"
  | op_mset _ => "mset"
  | op_ping => "ping"
  end.

(** The command an operation sends when it reaches the driver. *)
Definition command_of (o : op) : command :=
  match o with
  | op_get key => GET key
  | op_setex key seconds val => SETEX key seconds val
  | op_del key => DEL key
  | op_mget keys => MGET keys
  | op_mset keyValuePairs => MSET keyValuePairs
  | op_ping => PING
  end.

(** The safe defaults the specification lists: null, false, false, the
    empty sequence, false, false. *)
Definition safe_default (o : op) : value :=
  match o with
  | op_get _ => VNull
  | op_setex _ _ _ => VBool false
  | op_del _ => VBool false
  | op_mget _ => VArr []
  | op_mset _ => VBool false
  | op_ping => VBool false
  end.

(** A batch operation called with an empty batch. *)
Definition empty_batch (o : op) : bool :=
  match o with
  | op_mget [] => true
  | op_mset [] => true
  | _ => false
  end.

(** The Connection State of the specification, read off the client
    object: no object or an object still waiting for [connect()] is
    Uninitialized, [connecting]/[reconnecting] is Connecting,
    [connect]/[ready] is Ready, [close] is Degraded, [end] is Closed. *)
Inductive connection_state : Type :=
  | Uninitialized | ConnectingState | ReadyState | Degraded | Closed.

Definition state_of_status (s : conn_status) : connection_state :=
  match s with
  | Wait => Uninitialized
  | Connecting | Reconnecting => ConnectingState
  | Connect | Ready => ReadyState
  | Close => Degraded
  | End => Closed
  end.

Section Behaviour.
Context `{Tr : Transport}.

(** Calling an operation on the object [getRedisClient] returns. *)
Definition run_op (o : op) : M value :=
  bind getRedisClient (fun h =>
    match o with
    | op_get key => handle_get h key
    | op_setex key seconds val => handle_setex h key seconds val
    | op_del key => handle_del h key
    | op_mget keys => handle_mget h keys
    | op_mset keyValuePairs => handle_mset h keyValuePairs
    | op_ping => handle_ping h
    end).

(** The guard every operation starts with: [redisAvailable] is true and
    [redisClient] is set. *)
Definition usable (w : world) : bool :=
  redisAvailable w && truthy (redisClient w).

Definition connection_state_of (w : world) : connection_state :=
  match redisClient w with
  | None => Uninitialized
  | Some c => state_of_status (status c)
  end.

(** ** What can happen to the module, one step at a time *)

Inductive action : Type :=
  | act_init
  | act_emit (e : event)
  | act_connect_rejected (message : string)
  | act_call (o : op)
  | act_failed (o : op) (message : string)
  | act_signal.

(** [act_failed] is the [catch] block of a call that was awaiting the
    driver when other steps ran. *)
Definition perform (a : action) (w : world) : world :=
  match a with
  | act_init => snd (initRedis w)
  | act_emit e => snd (emit e w)
  | act_connect_rejected message => snd (connect_rejected message w)
  | act_call o => snd (run_op o w)
  | act_failed o message => snd (recover (op_name o) (safe_default o) message w)
  | act_signal => snd (on_signal w)
  end.

Definition perform_all (l : list action) (w : world) : world :=
  foldl (fun acc a => perform a acc) w l.

Inductive reachable (w0 : world) : world -> Prop :=
  | reach_start : reachable w0 w0
  | reach_step w a : reachable w0 w -> reachable w0 (perform a w).

(** The driver calls [initRedis] makes when it creates the client. *)
Definition init_calls (e : gmap string string) : list api_call :=
  [ new_Redis (redisOptions e);
    client_on on_error error_listener;
    client_on on_connect connect_listener;
    client_on on_ready ready_listener;
    client_on on_close close_listener;
    client_on on_reconnecting reconnecting_listener;
    client_connect ].

Definition init_listeners : list (event_name * listener) :=
  [ (on_error, error_listener);
    (on_connect, connect_listener);
    (on_ready, ready_listener);
    (on_close, close_listener);
    (on_reconnecting, reconnecting_listener) ].

Definition is_new (c : api_call) : bool :=
  match c with new_Redis _ => true | _ => false end.
Definition is_connect (c : api_call) : bool :=
  match c with client_connect => true | _ => false end.
Definition is_on (e : event_name) (c : api_call) : bool :=
  match c with client_on e' _ => bool_decide (e' = e) | _ => false end.
Definition is_send (c : api_call) : bool :=
  match c with client_send _ => true | _ => false end.

Definition count (p : api_call -> bool) (l : list api_call) : nat :=
  length (List.filter p l).

(** The operation reached the driver: its command is the one new entry
    on the wire. *)
Definition contacts (o : op) (w : world) : Prop :=
  wire (snd (run_op o w)) = wire w ++ [client_send (command_of o)].

(** The world a [catch] block leaves behind. *)
Definition failed (operation message : string) (w : world) : world :=
  with_available false
    (with_console (console w ++ [op_error operation message]) w).

(** Batch alignment of [mget] at one state: the call returns a sequence
    as long as [keys] whose i-th element is what [get] returns there for
    the i-th key. *)
Definition batch_aligned (keys : list string) (w : world) : Prop :=
  exists items : list value,
    fst (mget keys w) = Normal (VArr items)
    /\ length items = length keys
    /\ forall (i : nat) (k : string), keys !! i = Some k ->
         exists v, items !! i = Some v /\ fst (get k w) = Normal v.

(** The driver answers this [MGET] positionally: one entry per key, each
    the answer it gives to [GET] on that key in the same state. *)
Definition answers_positionally
  (keys : list string) (t : conn) (items : list value) : Prop :=
  fst (exec (MGET keys) t) = Resolved (VArr items)
  /\ Forall2 (fun k v => fst (exec (GET k) t) = Resolved v) keys items.

(** What every step preserves: without a client the flag is false; a
    client carries exactly the five listeners, and the flag is true only
    in status [connect] or [ready]. *)
Definition consistent (w : world) : Prop :=
  match redisClient w with
  | None => redisAvailable w = false
  | Some c =>
      registered c = init_listeners
      /\ (redisAvailable w = true -> status c = Connect \/ status c = Ready)
  end.

(** The operations whose driver reply is awaited and dropped. *)
Definition drops_reply (o : op) : bool :=
  match o with
  | op_setex _ _ _ | op_del _ | op_mset _ => true
  | _ => false
  end.

End Behaviour.

(** ** An in-memory stand-in for the driver and the server

    Used to run the module on concrete inputs.  [faults] scripts the
    next commands: [true] makes the command reject, [false] (or an
    exhausted script) lets the server answer. *)

Record sim : Type := Sim {
  store : gmap string string;
  faults : list bool;
  refuse_connect : bool
}.

Definition bulk (r : option string) : value :=
  match r with
  | Some v => VStr v
  | None => VNull
  end.

Definition sim_reply (c : command) (s : gmap string string)
  : value * gmap string string :=
  match c with
  | GET key => (bulk (s !! key), s)
  | SETEX key _ val => (VStr "OK", <[key := val]> s)
  | DEL key => (VNum (match s !! key with Some _ => 1 | None => 0 end), delete key s)
  | MGET keys => (VArr (map (fun k => bulk (s !! k)) keys), s)
  | MSET keyValuePairs =>
      (VStr "OK", foldl (fun acc kv => <[kv.1 := kv.2]> acc) s keyValuePairs)
  | PING => (VStr "PONG", s)
  | QUIT => (VStr "OK", s)
  end.

Definition sim_exec (c : command) (t : sim) : outcome * sim :=
  match faults t with
  | true :: rest =>
      (Rejected "Command timed out", Sim (store t) rest (refuse_connect t))
  | script =>
      let '(v, s') := sim_reply c (store t) in
      (Resolved v, Sim s' (tail script) (refuse_connect t))
  end.

Definition sim_begin_connect (t : sim) : option string * sim :=
  (if refuse_connect t then Some "connect ECONNREFUSED" else None, t).

Definition sim_transport : Transport :=
  {| conn := sim; exec := sim_exec; begin_connect := sim_begin_connect |}.

(** A driver that settles every command the same way. *)
Definition fixed (o : outcome) : Transport :=
  {| conn := unit;
     exec := fun _ _ => (o, tt);
     begin_connect := fun _ => (None, tt) |}.

(** A driver that answers: empty store, no scripted fault. *)
Definition healthy : sim := Sim ∅ [] false.

(** The module as loaded over a given driver state, no environment. *)
Definition loaded (t : sim) : @world sim_transport :=
  @boot sim_transport ∅ t.

(** The module after [initRedis] and the driver's [connect] and [ready]
    events. *)
Definition started (t : sim) : @world sim_transport :=
  @perform_all sim_transport
    [act_init; act_emit ev_connect; act_emit ev_ready] (loaded t).

Definition live : @world sim_transport := started healthy.

(** A driver whose next command times out. *)
Definition flaky : sim := Sim ∅ [true] false.

(** [live] after [mset] of a -> 1 and b -> 2. *)
Definition seeded : @world sim_transport :=
  snd (@run_op sim_transport (op_mset [("a", "1"); ("b", "2")]) live).

(** The module between the driver's [connect] and [ready] events. *)
Definition connected_only : @world sim_transport :=
  @perform_all sim_transport [act_init; act_emit ev_connect] (loaded healthy).

(** The module started over a driver that settles every command as [o]. *)
Definition started_fixed (o : outcome) : @world (fixed o) :=
  @perform_all (fixed o)
    [act_init; act_emit ev_connect; act_emit ev_ready] (@boot (fixed o) ∅ tt).

(** ** Notions used by the further properties *)

Section Traces.
Context `{Tr : Transport}.

(** Calling operation [o] as a method of a given object. *)
Definition call_on (h : handle) (o : op) : M value :=
  match o with
  | op_get key => handle_get h key
  | op_setex key seconds val => handle_setex h key seconds val
  | op_del key => handle_del h key
  | op_mget keys => handle_mget h keys
  | op_mset keyValuePairs => handle_mset h keyValuePairs
  | op_ping => handle_ping h
  end.

(** Every step except the delivery of a [connect] or [ready] event. *)
Definition quiet (a : action) : bool :=
  match a with
  | act_emit ev_connect | act_emit ev_ready => false
  | _ => true
  end.

(** The flag a delivered event leaves, and the line it writes. *)
Definition flag_after (ev : event) : bool :=
  match ev with
  | ev_connect | ev_ready => true
  | ev_error _ | ev_close | ev_reconnecting => false
  end.

Definition line_of (ev : event) : diag :=
  match ev with
  | ev_error message => client_error message
  | ev_connect => connected_msg
  | ev_ready => ready_msg
  | ev_close => closed_msg
  | ev_reconnecting => reconnecting_msg
  end.

(** The calls on the driver in a run from module load: none before
    [initRedis], then the calls of [initRedis] followed by commands. *)
Definition wire_shape (e : gmap string string) (w : world) : Prop :=
  env w = e
  /\ match redisClient w with
     | None => wire w = []
     | Some _ => exists cs, wire w = init_calls e ++ map client_send cs
     end.

End Traces.

(** ** The driver's status, a tick ahead of its events

    The driver changes the [status] field of the client at once and
    calls the listeners of the matching event on the next tick; [emit]
    above is the two together.  Here they are separate steps: status
    changes whose events (or, for a status without event listeners, whose
    passing) the module has not yet been told of wait in [pending], in
    order. *)

Inductive notice : Type :=
  | note_status (s : conn_status)
  | note_error (message : string).

(** The event the module listens to for a status, if any. *)
Definition event_of_status (s : conn_status) : option event :=
  match s with
  | Connect => Some ev_connect
  | Ready => Some ev_ready
  | Close => Some ev_close
  | Reconnecting => Some ev_reconnecting
  | Wait | Connecting | End => None
  end.

(** What is assumed of the driver: a connection that is up (status
    [connect] or [ready]) goes on to [ready] or is closed; it does not
    jump to another status without passing through [close]. *)
Definition leaves_through_close (s s' : conn_status) : bool :=
  match s with
  | Connect | Ready =>
      match s' with
      | Ready | Close => true
      | _ => false
      end
  | _ => true
  end.

Record timeline `{Transport} : Type := Timeline {
  now : world;
  pending : list notice
}.

Section Ticks.
Context `{Tr : Transport}.
Local Open Scope gateway_scope.

(** The driver writes the [status] field. *)
Definition set_status (s : conn_status) (w : world) : world :=
  match redisClient w with
  | Some c => with_client (Some (Client s (registered c))) w
  | None => w
  end.

(** The driver calls the listeners for a notice; the status is not
    touched. *)
Definition deliver (n : notice) : M unit :=
  cl <- read redisClient ;;
  match cl with
  | None => ret tt
  | Some c =>
      match n with
      | note_error message => run_listeners (registered c) (ev_error message)
      | note_status s =>
          match event_of_status s with
          | Some ev => run_listeners (registered c) ev
          | None => ret tt
          end
      end
  end.

(** Module steps, without the combined [act_emit]. *)
Definition silent (a : action) : bool :=
  match a with
  | act_emit _ => false
  | _ => true
  end.

Inductive tick : Type :=
  | tick_step (a : action)
  | tick_enter (s : conn_status)
  | tick_error (message : string)
  | tick_deliver.

Definition advance (k : tick) (v : timeline) : option timeline :=
  match k with
  | tick_step a =>
      if silent a then Some (Timeline _ (perform a (now v)) (pending v))
      else None
  | tick_enter s =>
      match redisClient (now v) with
      | Some c =>
          if leaves_through_close (status c) s
          then Some (Timeline _ (set_status s (now v))
                       (pending v ++ [note_status s]))
          else None
      | None => None
      end
  | tick_error message =>
      match redisClient (now v) with
      | Some _ => Some (Timeline _ (now v) (pending v ++ [note_error message]))
      | None => None
      end
  | tick_deliver =>
      match pending v with
      | n :: rest => Some (Timeline _ (snd (deliver n (now v))) rest)
      | [] => None
      end
  end.

Fixpoint advance_all (l : list tick) (v : timeline) : option timeline :=
  match l with
  | [] => Some v
  | k :: rest =>
      match advance k v with
      | Some v' => advance_all rest v'
      | None => None
      end
  end.

(** Where a list of ticks leads; a list that cannot all be taken leads
    nowhere. *)
Definition run_ticks (l : list tick) (v : timeline) : timeline :=
  match advance_all l v with
  | Some v' => v'
  | None => v
  end.





End Ticks.

(** The module at load time on the stand-in driver, nothing pending. *)
Definition dawn : @timeline sim_transport :=
  @Timeline sim_transport (loaded healthy) [].



(** [initRedis], the driver connects and is ready, the signal hook sends
    QUIT, the driver closes and ends the connection; the [close] and
    [end] notices are still to be delivered. *)
Definition shutdown_ticks : list tick :=
  [ tick_step act_init;
    tick_enter Connect; tick_deliver;
    tick_enter Ready; tick_deliver;
    tick_step act_signal;
    tick_enter Close; tick_enter End ].

(** * Properties *)

(** Calling through the object is calling the function itself. *)
Lemma run_op_unfold `{Tr : Transport} (o : op) (w : world) :
  run_op o w =
    match o with
    | op_get key => get key w
    | op_setex key seconds val => setex key seconds val w
    | op_del key => del key w
    | op_mget keys => mget keys w
    | op_mset keyValuePairs => mset keyValuePairs w
    | op_ping => ping w
    end.
Proof. destruct o; reflexivity. Qed.

Ltac run_body :=
  rewrite ?run_op_unfold;
  unfold get, setex, del, mget, mset, ping, isAvailable, on_signal,
    connect_rejected, recover, send, log, bind, try_catch, read, write,
    ret, throw;
  simpl.

Section Operations.
Context `{Tr : Transport}.

Lemma usable_true (w : world) :
  usable w = true <-> redisAvailable w = true /\ exists c, redisClient w = Some c.
Proof.
  unfold usable. destruct (redisAvailable w), (redisClient w) as [c|]; simpl;
    split; try discriminate; try (intros [? [? ?]]; discriminate);
    try (intros [? ?]; discriminate); eauto.
Qed.

Lemma usable_false (w : world) :
  usable w = false <-> redisAvailable w = false \/ redisClient w = None.
Proof.
  unfold usable. destruct (redisAvailable w), (redisClient w) as [c|]; simpl;
    split; auto; intros [?|?]; discriminate.
Qed.

(** Behind a closed guard an operation is the identity on the world. *)
Lemma run_op_unusable (o : op) (w : world) :
  usable w = false -> run_op o w = (Normal (safe_default o), w).
Proof.
  unfold usable. intros H. destruct o; run_body;
    destruct (redisAvailable w), (redisClient w); simpl in *;
    try discriminate; reflexivity.
Qed.

Lemma run_op_empty_batch (o : op) (w : world) :
  empty_batch o = true -> run_op o w = (Normal (safe_default o), w).
Proof.
  destruct o as [| | |[|k ks]|[|p ps]|]; simpl; try discriminate; intros _;
    run_body; destruct (redisAvailable w), (redisClient w); reflexivity.
Qed.

(** With the guard open, a rejected command ends in the [catch] block. *)
Lemma run_op_rejected (o : op) (w : world) (message : string) (t' : conn) :
  usable w = true -> empty_batch o = false ->
  exec (command_of o) (link w) = (Rejected message, t') ->
  run_op o w =
    (Normal (safe_default o), failed (op_name o) message (sent (command_of o) t' w)).
Proof.
  intros [Ha [c Hc]]%usable_true Hb He.
  destruct o as [| | |[|k ks]|[|p ps]|]; simpl in Hb; try discriminate;
    run_body; simpl in He; rewrite Ha, Hc; simpl; rewrite He, ?Hc; reflexivity.
Qed.

Lemma get_resolved (key : string) (w : world) (r : value) (t' : conn) :
  usable w = true -> exec (GET key) (link w) = (Resolved r, t') ->
  get key w = (Normal r, sent (GET key) t' w).
Proof.
  intros [Ha [c Hc]]%usable_true He. run_body. rewrite Ha, Hc; simpl.
  rewrite He, ?Hc. reflexivity.
Qed.

Lemma mget_resolved (keys : list string) (w : world) (r : value) (t' : conn) :
  usable w = true -> keys <> [] ->
  exec (MGET keys) (link w) = (Resolved r, t') ->
  mget keys w = (Normal r, sent (MGET keys) t' w).
Proof.
  intros [Ha [c Hc]]%usable_true Hk He. destruct keys as [|k ks]; [done|].
  run_body. rewrite Ha, Hc; simpl. rewrite He, ?Hc. reflexivity.
Qed.

Lemma ping_resolved (w : world) (r : value) (t' : conn) :
  usable w = true -> exec PING (link w) = (Resolved r, t') ->
  ping w = (Normal (VBool (strict_eq_str r "PONG")), sent PING t' w).
Proof.
  intros [Ha [c Hc]]%usable_true He. run_body. rewrite Ha, Hc; simpl.
  rewrite He, ?Hc. reflexivity.
Qed.

Lemma drops_reply_resolved (o : op) (w : world) (r : value) (t' : conn) :
  drops_reply o = true -> usable w = true -> empty_batch o = false ->
  exec (command_of o) (link w) = (Resolved r, t') ->
  run_op o w = (Normal (VBool true), sent (command_of o) t' w).
Proof.
  intros Hd [Ha [c Hc]]%usable_true Hb He.
  destruct o as [| | |[|k ks]|[|p ps]|]; simpl in Hb, Hd; try discriminate;
    run_body; simpl in He; rewrite Ha, Hc; simpl; rewrite He, ?Hc; reflexivity.
Qed.

(** With the guard open, an answered command ends the call normally. *)
Lemma run_op_resolved (o : op) (w : world) (r : value) (t' : conn) :
  usable w = true -> empty_batch o = false ->
  exec (command_of o) (link w) = (Resolved r, t') ->
  exists v, run_op o w = (Normal v, sent (command_of o) t' w).
Proof.
  intros Hu Hb He.
  destruct o as [| | |[|k ks]|[|p ps]|]; simpl in Hb; try discriminate;
    cbn [command_of] in *.
  - rewrite run_op_unfold. rewrite (get_resolved _ _ _ _ Hu He). eauto.
  - rewrite (drops_reply_resolved (op_setex _ _ _) _ _ _ eq_refl Hu eq_refl He).
    eauto.
  - rewrite (drops_reply_resolved (op_del _) _ _ _ eq_refl Hu eq_refl He).
    eauto.
  - rewrite run_op_unfold. rewrite (mget_resolved (k :: ks) _ _ _ Hu ltac:(done) He).
    eauto.
  - rewrite (drops_reply_resolved (op_mset (p :: ps)) _ _ _ eq_refl Hu eq_refl He).
    eauto.
  - rewrite run_op_unfold. rewrite (ping_resolved _ _ _ Hu He). eauto.
Qed.

(** An operation that reached the driver had its guard open and a
    non-empty batch. *)
Lemma contacts_inv (o : op) (w : world) :
  contacts o w -> usable w = true /\ empty_batch o = false.
Proof.
  unfold contacts. intros H.
  assert (Hne : wire w <> wire w ++ [client_send (command_of o)]).
  { intros E. apply (f_equal length) in E. rewrite length_app in E.
    simpl in E. lia. }
  split.
  - destruct (usable w) eqn:E; [done|].
    rewrite (run_op_unusable o w E) in H. simpl in H. congruence.
  - destruct (empty_batch o) eqn:E; [|done].
    rewrite (run_op_empty_batch o w E) in H. simpl in H. congruence.
Qed.

Lemma contacts_intro (o : op) (w : world) :
  usable w = true -> empty_batch o = false -> contacts o w.
Proof.
  intros Hu Hb. unfold contacts.
  destruct (exec (command_of o) (link w)) as [[r|m] t'] eqn:He.
  - destruct (run_op_resolved _ _ _ _ Hu Hb He) as [v ->]. reflexivity.
  - rewrite (run_op_rejected _ _ _ _ Hu Hb He). reflexivity.
Qed.

(** No operation ever completes by throwing. *)
Lemma run_op_normal (o : op) (w : world) :
  exists v, fst (run_op o w) = Normal v.
Proof.
  destruct (usable w) eqn:Hu; [|rewrite (run_op_unusable o w Hu); eauto].
  destruct (empty_batch o) eqn:Hb; [rewrite (run_op_empty_batch o w Hb); eauto|].
  destruct (exec (command_of o) (link w)) as [[r|m] t'] eqn:He.
  - destruct (run_op_resolved _ _ _ _ Hu Hb He) as [v ->]. eauto.
  - rewrite (run_op_rejected _ _ _ _ Hu Hb He). eauto.
Qed.

Lemma strict_eq_str_spec (r : value) (lit : string) :
  strict_eq_str r lit = true <-> r = VStr lit.
Proof.
  destruct r; simpl; try (split; [discriminate|intros [=]]).
  rewrite String.eqb_eq. split; [intros ->; reflexivity|intros [=]; done].
Qed.

(** C1. No call of any operation, in any state, completes by throwing;
    and whenever the guard is open, the batch is not empty and the
    driver rejects the command (timeout, connection error, protocol
    error), the command has gone out once, the call returns the
    operation's safe default, [redisAvailable] is false afterwards and
    the failure is on the console. *)
Theorem transport_failure_swallowed (o : op) (w : world) :
  (exists v, fst (run_op o w) = Normal v)
  /\ (forall (message : string) (t' : conn),
        usable w = true ->
        empty_batch o = false ->
        exec (command_of o) (link w) = (Rejected message, t') ->
        fst (run_op o w) = Normal (safe_default o)
        /\ redisAvailable (snd (run_op o w)) = false
        /\ console (snd (run_op o w))
           = console w ++ [op_error (op_name o) message]
        /\ wire (snd (run_op o w)) = wire w ++ [client_send (command_of o)]).
Proof.
  split; [apply run_op_normal|].
  intros message t' Hu Hb He.
  rewrite (run_op_rejected _ _ _ _ Hu Hb He). simpl. repeat split.
Qed.

(** C2. If [redisAvailable] is false or [redisClient] is unset when an
    operation is called, the call returns the safe default and leaves
    the whole world, the wire and the driver included, as it was. *)
Theorem unavailable_returns_safe_default (o : op) (w : world) :
  redisAvailable w = false \/ redisClient w = None ->
  run_op o w = (Normal (safe_default o), w)
  /\ wire (snd (run_op o w)) = wire w
  /\ link (snd (run_op o w)) = link w.
Proof.
  intros H%usable_false. rewrite (run_op_unusable o w H). done.
Qed.

(** C5. With the guard open and the driver answering the ping, [ping]
    returns true exactly when the answer is the string PONG; any other
    answer gives false. *)
Theorem ping_true_iff_pong (w : world) (r : value) (t' : conn) :
  usable w = true ->
  exec PING (link w) = (Resolved r, t') ->
  (fst (ping w) = Normal (VBool true) <-> r = VStr "PONG")
  /\ (r <> VStr "PONG" -> fst (ping w) = Normal (VBool false)).
Proof.
  intros Hu He. rewrite (ping_resolved _ _ _ Hu He). simpl.
  pose proof (strict_eq_str_spec r "PONG") as Hs.
  destruct (strict_eq_str r "PONG"); split.
  - split; [intros _; apply Hs; reflexivity|reflexivity].
  - intros Hn. destruct Hn. apply Hs. reflexivity.
  - split; [intros [=]|intros Hr; apply Hs in Hr; discriminate].
  - reflexivity.
Qed.

(** C7. [mset] on the empty batch returns false in every state and
    changes nothing: nothing is sent. *)
Theorem mset_empty_rejected (w : world) :
  mset [] w = (Normal (VBool false), w)
  /\ wire (snd (mset [] w)) = wire w.
Proof.
  change (mset [] w) with (run_op (op_mset []) w).
  rewrite (run_op_empty_batch (op_mset []) w eq_refl). done.
Qed.


End Operations.

Section Batches.
Context `{Tr : Transport}.

Lemma mget_fallback (keys : list string) (w : world) :
  usable w = false \/ (exists message t',
                         exec (MGET keys) (link w) = (Rejected message, t')) ->
  fst (mget keys w) = Normal (VArr []).
Proof.
  change (mget keys w) with (run_op (op_mget keys) w).
  intros [Hu|(message & t' & He)].
  - rewrite (run_op_unusable _ _ Hu). reflexivity.
  - destruct (usable w) eqn:Hu; [|rewrite (run_op_unusable _ _ Hu); reflexivity].
    destruct (empty_batch (op_mget keys)) eqn:Hb.
    + rewrite (run_op_empty_batch _ _ Hb). reflexivity.
    + rewrite (run_op_rejected _ _ _ _ Hu Hb He). reflexivity.
Qed.

(** C3, as amended. With the guard open and the driver answering the
    [MGET] positionally, [mget] returns the driver's sequence unchanged:
    it is as long as [keys] and its i-th element is what [get] returns
    for the i-th key, duplicates and order kept, misses as null.  With
    the guard closed, or when the driver rejects the [MGET], [mget]
    returns the empty sequence whatever the keys are. *)
Theorem mget_aligned_when_answered
  (keys : list string) (w : world) (items : list value) :
  usable w = true ->
  answers_positionally keys (link w) items ->
  fst (mget keys w) = Normal (VArr items)
  /\ batch_aligned keys w
  /\ (forall (ks : list string) (w' : world),
        usable w' = false -> fst (mget ks w') = Normal (VArr []))
  /\ (forall (ks : list string) (w' : world) (message : string) (t' : conn),
        exec (MGET ks) (link w') = (Rejected message, t') ->
        fst (mget ks w') = Normal (VArr [])).
Proof.
  intros Hu [Hm Hg].
  cut (fst (mget keys w) = Normal (VArr items) /\ batch_aligned keys w).
  { intros [H1 H2]. repeat split; [exact H1|exact H2| |].
    - intros ks w' Hf. apply mget_fallback. left. exact Hf.
    - intros ks w' message t' He. apply mget_fallback. right. eauto. }
  assert (Hr : fst (mget keys w) = Normal (VArr items)).
  { destruct keys as [|k ks].
    - apply Forall2_nil_inv_l in Hg as ->.
      change (mget [] w) with (run_op (op_mget []) w).
      rewrite (run_op_empty_batch (op_mget []) w eq_refl). reflexivity.
    - destruct (exec (MGET (k :: ks)) (link w)) as [r t'] eqn:He.
      simpl in Hm. subst r.
      rewrite (mget_resolved (k :: ks) _ _ _ Hu ltac:(done) He). reflexivity. }
  split; [exact Hr|].
  exists items. split; [exact Hr|]. split.
  - symmetry. eapply Forall2_length, Hg.
  - intros i k Hk.
    destruct (Forall2_lookup_l _ _ _ _ _ Hg Hk) as (v & Hv & Hgv).
    exists v. split; [exact Hv|].
    destruct (exec (GET k) (link w)) as [r t'] eqn:He.
    simpl in Hgv. subst r.
    rewrite (get_resolved _ _ _ _ Hu He). reflexivity.
Qed.

End Batches.

(** C8. The retry strategy handed to the driver returns, for every
    attempt number, the number min(times * 50, 2000); the result is
    always a delay and never a value on which the driver gives up. *)
Theorem retryStrategy_backoff (e : gmap string string) (times : Z) :
  retry (redisOptions e) times = retryStrategy times
  /\ retry_delay (retryStrategy times) = Some (Z.min (times * 50) 2000)
  /\ stops_retrying (retryStrategy times) = false
  /\ Z.min (times * 50) 2000 <= 2000.
Proof.
  repeat split. apply Z.le_min_r.
Qed.

Section Lifecycle.
Context `{Tr : Transport}.

Lemma bind_normal {A B} (m : M A) (k : A -> M B) (w w' : world) (a : A) :
  m w = (Normal a, w') -> bind m k w = k a w'.
Proof. unfold bind. intros ->. reflexivity. Qed.

Lemma on_client (e : event_name) (l : listener) (w : world) (c : client) :
  redisClient w = Some c ->
  on e l w =
    (Normal tt,
     with_wire (wire w ++ [client_on e l])
       (with_client (Some (Client (status c) (registered c ++ [(e, l)]))) w)).
Proof. intros H. unfold on, bind, read, write. rewrite H. reflexivity. Qed.

Ltac tidy :=
  cbn [with_wire with_client with_console with_available with_link
       env redisClient redisAvailable console wire link status registered app].
Ltac step :=
  erewrite bind_normal by (first [apply on_client; reflexivity | reflexivity]);
  tidy.

(** The first call of [initRedis], statement by statement: the client is
    created in status [wait], the five listeners are registered, and
    [connect()] either starts the attempt or throws into the [catch]. *)
Lemma initRedis_fresh_eq (w : world) :
  redisClient w = None ->
  initRedis w =
    match begin_connect (link w) with
    | (Some message, t') =>
        (Normal tt,
         World _ (env w) (Some (Client Wait init_listeners)) false
           (console w ++ [init_failed message])
           (wire w ++ init_calls (env w)) t')
    | (None, t') =>
        (Normal tt,
         World _ (env w) (Some (Client Connecting init_listeners))
           (redisAvailable w) (console w)
           (wire w ++ init_calls (env w)) t')
    end.
Proof.
  intros Hc. destruct w as [e c a co wi l]. cbn in Hc. subst c. tidy.
  unfold initRedis. step. cbn [negb truthy]. unfold try_catch.
  step. unfold construct. step.
  change (lazyConnect (redisOptions e)) with true. cbv iota.
  do 6 step.
  unfold connect. tidy. unfold init_calls, init_listeners.
  rewrite <- !app_assoc. cbn [app].
  destruct (begin_connect l) as [[m|] t']; [|reflexivity].
  unfold log, write, bind. tidy. reflexivity.
Qed.

Lemma initRedis_fresh (w : world) :
  redisClient w = None ->
  fst (initRedis w) = Normal tt
  /\ (exists s, redisClient (snd (initRedis w)) = Some (Client s init_listeners))
  /\ wire (snd (initRedis w)) = wire w ++ init_calls (env w)
  /\ (redisAvailable w = false -> redisAvailable (snd (initRedis w)) = false).
Proof.
  intros Hc. rewrite (initRedis_fresh_eq w Hc).
  destruct (begin_connect (link w)) as [[message|] t']; cbn [fst snd]; tidy;
    eauto 6.
Qed.

(** Once a client exists, [initRedis] does nothing. *)
Lemma initRedis_again (w : world) :
  redisClient w <> None -> initRedis w = (Normal tt, w).
Proof.
  intros Hc. unfold initRedis, bind, read, ret.
  destruct (redisClient w); [reflexivity|done].
Qed.

Lemma initRedis_repeat (n : nat) (w : world) :
  redisClient w = None ->
  Nat.iter (S n) (perform act_init) w = perform act_init w.
Proof.
  intros Hc. induction n as [|n IH]; [reflexivity|].
  change (Nat.iter (S (S n)) (perform act_init) w)
    with (perform act_init (Nat.iter (S n) (perform act_init) w)).
  rewrite IH. unfold perform at 1.
  destruct (initRedis_fresh w Hc) as (_ & [s Hs] & _).
  rewrite initRedis_again; [reflexivity|].
  unfold perform. rewrite Hs. done.
Qed.

(** An operation never touches the client and never raises the flag. *)
Lemma run_op_frame (o : op) (w : world) :
  redisClient (snd (run_op o w)) = redisClient w
  /\ (redisAvailable (snd (run_op o w)) = true -> redisAvailable w = true).
Proof.
  destruct (usable w) eqn:Hu; [|rewrite (run_op_unusable o w Hu); done].
  destruct (empty_batch o) eqn:Hb; [rewrite (run_op_empty_batch o w Hb); done|].
  destruct (exec (command_of o) (link w)) as [[r|m] t'] eqn:He.
  - destruct (run_op_resolved _ _ _ _ Hu Hb He) as [v ->]. done.
  - rewrite (run_op_rejected _ _ _ _ Hu Hb He). simpl. split; [done|discriminate].
Qed.

Lemma on_signal_frame (w : world) :
  redisClient (snd (on_signal w)) = redisClient w
  /\ redisAvailable (snd (on_signal w)) = redisAvailable w.
Proof.
  run_body. destruct (redisClient w) as [c|] eqn:Hc; simpl; [|done].
  destruct (exec QUIT (link w)) as [[r|m] t']; simpl; rewrite ?Hc; done.
Qed.

Lemma consistent_boot (e : gmap string string) (t : conn) :
  consistent (boot e t).
Proof. reflexivity. Qed.

Lemma consistent_emit (e : event) (w : world) :
  consistent w -> consistent (snd (emit e w)).
Proof.
  unfold consistent, emit, bind, read, write, ret.
  destruct (redisClient w) as [[s ls]|] eqn:Hc; simpl; [|rewrite Hc; done].
  intros [-> Hs]. destruct e; simpl; (split; [reflexivity|]);
    try discriminate; auto.
Qed.

Lemma consistent_perform (a : action) (w : world) :
  consistent w -> consistent (perform a w).
Proof.
  intros H. destruct a as [|e|message|o|o message|]; simpl.
  - unfold consistent in *. destruct (redisClient w) as [c|] eqn:Hc.
    + rewrite initRedis_again by (rewrite Hc; done). simpl. rewrite Hc. exact H.
    + destruct (initRedis_fresh w Hc) as (_ & [s ->] & _ & Hf). simpl.
      split; [reflexivity|]. rewrite (Hf H). discriminate.
  - apply consistent_emit, H.
  - unfold consistent in *. simpl. destruct (redisClient w); [|reflexivity].
    split; [apply H|discriminate].
  - unfold consistent in *. destruct (run_op_frame o w) as [-> Hf].
    destruct (redisClient w); [|].
    + split; [apply H|]. intros Ht. apply H, Hf, Ht.
    + destruct (redisAvailable (snd (run_op o w))) eqn:E; [|reflexivity].
      rewrite (Hf eq_refl) in H. discriminate.
  - unfold consistent in *. simpl. destruct (redisClient w); [|reflexivity].
    split; [apply H|discriminate].
  - unfold consistent in *. destruct (on_signal_frame w) as [-> ->]. exact H.
Qed.

Lemma reachable_consistent (e : gmap string string) (t : conn) (w : world) :
  reachable (boot e t) w -> consistent w.
Proof.
  induction 1 as [|w a _ IH]; [apply consistent_boot|].
  apply consistent_perform, IH.
Qed.

Lemma reachable_perform_all (w0 : world) (l : list action) :
  reachable w0 (perform_all l w0).
Proof.
  induction l as [|a l IH] using rev_ind; [constructor|].
  unfold perform_all. rewrite foldl_app. simpl. constructor. exact IH.
Qed.

(** C6. From module load, any number N >= 1 of calls of [initRedis]
    leaves the state of a single call: one [new Redis], one [connect()],
    one registration of each of the five listeners; and a call made
    while a client exists changes nothing. *)
Theorem initRedis_idempotent
  (N : nat) (e : gmap string string) (t : conn) :
  (1 <= N)%nat ->
  let w := Nat.iter N (perform act_init) (boot e t) in
  w = perform act_init (boot e t)
  /\ wire w = init_calls e
  /\ count is_new (wire w) = 1%nat
  /\ count is_connect (wire w) = 1%nat
  /\ (forall ev, count (is_on ev) (wire w) = 1%nat)
  /\ (exists s, redisClient w = Some (Client s init_listeners))
  /\ (forall w', redisClient w' <> None -> initRedis w' = (Normal tt, w')).
Proof.
  intros HN w. subst w. destruct N as [|n]; [lia|].
  rewrite (initRedis_repeat n (boot e t) eq_refl).
  destruct (initRedis_fresh (boot e t) eq_refl) as (_ & Hs & Hw & _).
  simpl in Hw. unfold perform. rewrite Hw.
  repeat split; try reflexivity; try exact Hs.
  - intros ev. destruct ev; reflexivity.
  - apply initRedis_again.
Qed.

(** C10. [isAvailable()] returning true implies that the guard of the
    operations is open, but not conversely: after [initRedis] and the
    driver's [connect] event (and before any [ready] event) the state is
    reachable, [isAvailable()] returns false, the guard is open, and
    every operation called with a non-empty batch reaches the driver. *)
Theorem isAvailable_stricter_than_guard (e : gmap string string) (t : conn) :
  (forall w, fst (isAvailable w) = Normal true -> usable w = true)
  /\ (let w := perform_all [act_init; act_emit ev_connect] (boot e t) in
      reachable (boot e t) w
      /\ fst (isAvailable w) = Normal false
      /\ usable w = true
      /\ forall o, empty_batch o = false -> contacts o w).
Proof.
  split.
  - intros w. unfold isAvailable, usable, bind, read, ret. simpl.
    destruct (redisAvailable w), (redisClient w); simpl; try discriminate.
    reflexivity.
  - intros w.
    assert (Hw : redisAvailable w = true
                 /\ redisClient w = Some (Client Connect init_listeners)).
    { subst w. unfold perform_all. simpl.
      destruct (initRedis_fresh (boot e t) eq_refl) as (_ & [s Hs] & _).
      unfold emit, bind, read, write, ret. rewrite Hs. simpl. done. }
    destruct Hw as [Ha Hc].
    assert (Hu : usable w = true) by (unfold usable; rewrite Ha, Hc; done).
    split; [apply reachable_perform_all|].
    split; [unfold isAvailable, bind, read, ret; rewrite Ha, Hc; reflexivity|].
    split; [exact Hu|].
    intros o Hb. apply contacts_intro; assumption.
Qed.

End Lifecycle.

(** * Further properties of the module *)

Section Further.
Context `{Tr : Transport}.

(** ** Helper facts *)

Lemma usable_failed (operation message : string) (w : world) :
  usable (failed operation message w) = false.
Proof. reflexivity. Qed.

Lemma calls_unusable (os : list op) (w : world) :
  usable w = false -> perform_all (map act_call os) w = w.
Proof.
  intros Hu. induction os as [|o os IH]; [reflexivity|].
  unfold perform_all in *. simpl. rewrite (run_op_unusable o w Hu). exact IH.
Qed.

(** What a call does to the world, in every state. *)
Lemma run_op_effect (o : op) (w : world) :
  env (snd (run_op o w)) = env w
  /\ redisClient (snd (run_op o w)) = redisClient w
  /\ (redisAvailable (snd (run_op o w)) = true -> redisAvailable w = true)
  /\ (wire (snd (run_op o w)) = wire w
      \/ wire (snd (run_op o w)) = wire w ++ [client_send (command_of o)]).
Proof.
  destruct (usable w) eqn:Hu; [|rewrite (run_op_unusable o w Hu); auto].
  destruct (empty_batch o) eqn:Hb; [rewrite (run_op_empty_batch o w Hb); auto|].
  destruct (exec (command_of o) (link w)) as [[r|m] t'] eqn:He.
  - destruct (run_op_resolved _ _ _ _ Hu Hb He) as [v ->]. simpl. auto.
  - rewrite (run_op_rejected _ _ _ _ Hu Hb He). simpl.
    repeat split; auto. discriminate.
Qed.

(** An event delivered to a client that carries the five listeners. *)
Lemma emit_registered (ev : event) (w : world) (c : client) :
  redisClient w = Some c ->
  registered c = init_listeners ->
  emit ev w =
    (Normal tt,
     World _ (env w)
       (Some (Client (status_after ev (status c)) init_listeners))
       (flag_after ev) (console w ++ [line_of ev]) (wire w) (link w)).
Proof.
  destruct w as [e cl a co wi l], c as [s ls]. simpl.
  intros [= ->] ->. destruct ev; reflexivity.
Qed.

Lemma emit_no_client (ev : event) (w : world) :
  redisClient w = None -> emit ev w = (Normal tt, w).
Proof. intros H. unfold emit, bind, read, ret. rewrite H. reflexivity. Qed.

Lemma reachable_client_listeners
  (e : gmap string string) (t : conn) (w : world) (c : client) :
  reachable (boot e t) w -> redisClient w = Some c ->
  registered c = init_listeners.
Proof.
  intros Hr Hc. apply reachable_consistent in Hr.
  unfold consistent in Hr. rewrite Hc in Hr. apply Hr.
Qed.

Lemma on_signal_effect (w : world) :
  fst (on_signal w) = Normal tt
  /\ env (snd (on_signal w)) = env w
  /\ match redisClient w with
     | None => snd (on_signal w) = w
     | Some _ =>
         wire (snd (on_signal w)) = wire w ++ [client_send QUIT]
         /\ console (snd (on_signal w)) =
              console w ++ [match fst (exec QUIT (link w)) with
                            | Resolved _ => quit_done
                            | Rejected message => quit_error message
                            end]
     end.
Proof.
  run_body. destruct (redisClient w) as [c|] eqn:Hc; simpl; [|auto].
  destruct (exec QUIT (link w)) as [[r|m] t']; simpl; rewrite ?Hc; auto.
Qed.

Lemma count_app (p : api_call -> bool) (l1 l2 : list api_call) :
  count p (l1 ++ l2) = (count p l1 + count p l2)%nat.
Proof. unfold count. rewrite List.filter_app, length_app. reflexivity. Qed.

Lemma count_sends (p : api_call -> bool) (cs : list command) :
  (forall c, p (client_send c) = false) ->
  count p (map client_send cs) = 0%nat.
Proof.
  intros Hp. unfold count. induction cs as [|c cs IH]; [reflexivity|].
  simpl. rewrite Hp. exact IH.
Qed.

Lemma reachable_wire_shape (e : gmap string string) (t : conn) (w : world) :
  reachable (boot e t) w -> wire_shape e w.
Proof.
  induction 1 as [|w a Hr [He IH]]; [split; reflexivity|].
  pose proof (reachable_consistent _ _ _ Hr) as Hc.
  unfold wire_shape, consistent in *.
  destruct a as [|ev|message|o|o message|]; simpl.
  - destruct (redisClient w) as [c|] eqn:Hcl.
    + rewrite initRedis_again by (rewrite Hcl; done). simpl.
      rewrite Hcl. auto.
    + rewrite (initRedis_fresh_eq w Hcl).
      destruct (begin_connect (link w)) as [[m|] t']; simpl;
        (split; [exact He|]); exists []; rewrite IH, He; reflexivity.
  - destruct (redisClient w) as [c|] eqn:Hcl.
    + destruct Hc as [Hl _]. rewrite (emit_registered ev w c Hcl Hl). simpl. auto.
    + rewrite (emit_no_client ev w Hcl). simpl. rewrite Hcl. auto.
  - destruct (redisClient w); auto.
  - destruct (usable w) eqn:Hu; [|rewrite (run_op_unusable o w Hu); auto].
    pose proof Hu as [_ [c Hcl]]%usable_true.
    destruct (run_op_effect o w) as (-> & -> & _ & Hw).
    split; [exact He|]. rewrite Hcl in *. destruct IH as [cs IH].
    destruct Hw as [-> | ->]; rewrite IH; [eauto|].
    exists (cs ++ [command_of o]). rewrite map_app, <- app_assoc. reflexivity.
  - destruct (redisClient w); auto.
  - destruct (on_signal_effect w) as (_ & -> & Hs).
    destruct (on_signal_frame w) as [-> _].
    split; [exact He|]. destruct (redisClient w) as [c|].
    + destruct Hs as [-> _]. destruct IH as [cs ->]. exists (cs ++ [QUIT]).
      rewrite map_app, <- app_assoc. reflexivity.
    + rewrite Hs. exact IH.
Qed.

(** ** The flag against the driver's status, tick by tick *)



(** [emit] is a status change whose event is delivered at once. *)
Lemma emit_is_enter_then_deliver (ev : event) (w : world) (c : client) :
  redisClient w = Some c ->
  registered c = init_listeners ->
  snd (emit ev w) =
    snd (deliver
           match ev with
           | ev_error message => note_error message
           | _ => note_status (status_after ev (status c))
           end
           (set_status (status_after ev (status c)) w)).
Proof.
  intros Hc Hl. rewrite (emit_registered ev w c Hc Hl).
  destruct w as [e cl a co wi l], c as [s ls]. simpl in Hc, Hl. subst.
  destruct ev; reflexivity.
Qed.











(** ** Operations *)

(** X1. A call that reached the driver and was answered changes nothing
    but the wire and the driver: the flag, the client, the environment
    and the console are as before (nothing is logged on success). *)
Theorem answered_call_keeps_state
  (o : op) (w : world) (r : value) (t' : conn) :
  contacts o w ->
  exec (command_of o) (link w) = (Resolved r, t') ->
  snd (run_op o w) = sent (command_of o) t' w
  /\ redisAvailable (snd (run_op o w)) = redisAvailable w
  /\ redisClient (snd (run_op o w)) = redisClient w
  /\ console (snd (run_op o w)) = console w.
Proof.
  intros [Hu Hb]%contacts_inv He.
  destruct (run_op_resolved _ _ _ _ Hu Hb He) as [v ->]. done.
Qed.

(** X2. In every state, a call keeps the client and the environment,
    never turns the flag from false to true, and puts at most one
    command on the wire: a failed command is not retried. *)
Theorem call_never_opens_guard (o : op) (w : world) :
  env (snd (run_op o w)) = env w
  /\ redisClient (snd (run_op o w)) = redisClient w
  /\ (redisAvailable (snd (run_op o w)) = true -> redisAvailable w = true)
  /\ (wire (snd (run_op o w)) = wire w
      \/ wire (snd (run_op o w)) = wire w ++ [client_send (command_of o)]).
Proof. apply run_op_effect. Qed.

(** X3. After a call that the driver rejected, every further call, and
    every sequence of further calls, returns its safe default and leaves
    the world (wire and driver included) untouched. *)
Theorem lockout_after_failure
  (o o' : op) (os : list op) (w : world) (message : string) (t' : conn) :
  contacts o w ->
  exec (command_of o) (link w) = (Rejected message, t') ->
  run_op o' (snd (run_op o w)) = (Normal (safe_default o'), snd (run_op o w))
  /\ perform_all (map act_call os) (snd (run_op o w)) = snd (run_op o w).
Proof.
  intros [Hu Hb]%contacts_inv He.
  rewrite (run_op_rejected _ _ _ _ Hu Hb He). cbn [snd].
  split; [apply run_op_unusable|apply calls_unusable]; apply usable_failed.
Qed.

(** X13. [mget] on the empty list returns the empty sequence in every
    state and changes nothing: nothing is sent. *)
Theorem mget_empty_short_circuit (w : world) :
  mget [] w = (Normal (VArr []), w).
Proof.
  change (mget [] w) with (run_op (op_mget []) w).
  apply (run_op_empty_batch (op_mget [])). reflexivity.
Qed.

(** X14. A ping answered with anything but PONG returns false without
    closing the guard: the flag stays true, nothing is logged, and the
    next call still reaches the driver. *)
Theorem ping_mismatch_keeps_guard
  (w : world) (r : value) (t' : conn) (o : op) :
  usable w = true ->
  exec PING (link w) = (Resolved r, t') ->
  r <> VStr "PONG" ->
  empty_batch o = false ->
  fst (ping w) = Normal (VBool false)
  /\ redisAvailable (snd (ping w)) = true
  /\ console (snd (ping w)) = console w
  /\ contacts o (snd (ping w)).
Proof.
  intros Hu He Hr Hb. rewrite (ping_resolved _ _ _ Hu He). cbn [fst snd].
  pose proof Hu as [Ha [c Hc]]%usable_true.
  split.
  - destruct (strict_eq_str r "PONG") eqn:E; [|reflexivity].
    apply strict_eq_str_spec in E. contradiction.
  - split; [exact Ha|]. split; [reflexivity|].
    apply contacts_intro; [|exact Hb].
    apply usable_true. split; [exact Ha|]. exists c. exact Hc.
Qed.

(** ** Events *)

(** X4. In a state reached from module load where the client exists,
    delivering an event runs exactly the listener registered for it:
    the flag becomes true for [connect] and [ready] and false for
    [error], [close] and [reconnecting], one line is logged, nothing is
    sent, and [isAvailable()] answers true only after [ready]. *)
Theorem event_table
  (e : gmap string string) (t : conn) (w : world) (c : client) (ev : event) :
  reachable (boot e t) w ->
  redisClient w = Some c ->
  redisAvailable (perform (act_emit ev) w) = flag_after ev
  /\ usable (perform (act_emit ev) w) = flag_after ev
  /\ fst (isAvailable (perform (act_emit ev) w))
     = Normal (match ev with ev_ready => true | _ => false end)
  /\ console (perform (act_emit ev) w) = console w ++ [line_of ev]
  /\ wire (perform (act_emit ev) w) = wire w
  /\ link (perform (act_emit ev) w) = link w.
Proof.
  intros Hr Hc. pose proof (reachable_client_listeners _ _ _ _ Hr Hc) as Hl.
  cbn [perform]. rewrite (emit_registered ev w c Hc Hl).
  destruct ev; repeat split.
Qed.

(** X5. Failure isolation: in a run from module load, a rejected call
    closes the guard, and the driver's next [ready] event opens it
    again, so that the following call reaches the driver. *)
Theorem ready_reopens_after_failure
  (e : gmap string string) (t : conn) (w : world)
  (o o' : op) (message : string) (t' : conn) :
  reachable (boot e t) w ->
  contacts o w ->
  exec (command_of o) (link w) = (Rejected message, t') ->
  empty_batch o' = false ->
  usable (snd (run_op o w)) = false
  /\ contacts o' (perform (act_emit ev_ready) (snd (run_op o w)))
  /\ fst (isAvailable (perform (act_emit ev_ready) (snd (run_op o w))))
     = Normal true.
Proof.
  intros Hr Hct He Hb'.
  pose proof Hct as [Hu Hb]%contacts_inv.
  pose proof Hu as [_ [c Hc]]%usable_true.
  assert (Hr1 : reachable (boot e t) (perform (act_call o) w))
    by (constructor; exact Hr).
  cbn [perform] in Hr1.
  assert (Hc1 : redisClient (snd (run_op o w)) = Some c).
  { destruct (run_op_effect o w) as (_ & -> & _). exact Hc. }
  pose proof (reachable_client_listeners _ _ _ _ Hr1 Hc1) as Hl.
  split.
  - rewrite (run_op_rejected _ _ _ _ Hu Hb He). reflexivity.
  - cbn [perform]. rewrite (emit_registered ev_ready _ c Hc1 Hl). cbn [snd].
    split; [|reflexivity]. apply contacts_intro; [reflexivity|exact Hb'].
Qed.

(** X8. Only the [connect] and [ready] listeners open the guard: in a
    run from module load in which no [connect] or [ready] event is
    delivered, the flag is false, whatever else happened, and every call
    returns its safe default without reaching the driver. *)
Theorem flag_needs_connect_or_ready
  (e : gmap string string) (t : conn) (l : list action) (o : op) :
  forallb quiet l = true ->
  redisAvailable (perform_all l (boot e t)) = false
  /\ run_op o (perform_all l (boot e t))
     = (Normal (safe_default o), perform_all l (boot e t)).
Proof.
  intros Hq.
  assert (Hf : redisAvailable (perform_all l (boot e t)) = false).
  { induction l as [|a l IH] using rev_ind; [reflexivity|].
    rewrite forallb_app in Hq. apply andb_prop in Hq as [Hl Ha].
    simpl in Ha. rewrite andb_true_r in Ha. specialize (IH Hl).
    unfold perform_all in *. rewrite foldl_app. simpl.
    set (w := foldl (fun acc a0 => perform a0 acc) (boot e t) l) in *.
    assert (Hc : consistent w).
    { apply (reachable_consistent e t). apply reachable_perform_all. }
    unfold consistent in Hc.
    destruct a as [|ev|message|o0|o0 message|]; cbn [perform].
    - destruct (redisClient w) as [c|] eqn:Hcl.
      + rewrite initRedis_again by (rewrite Hcl; done). exact IH.
      + destruct (initRedis_fresh w Hcl) as (_ & _ & _ & H). apply H, IH.
    - destruct (redisClient w) as [c|] eqn:Hcl.
      + destruct Hc as [Hls _]. rewrite (emit_registered ev w c Hcl Hls).
        destruct ev; simpl in Ha; try discriminate; reflexivity.
      + rewrite (emit_no_client ev w Hcl). exact IH.
    - reflexivity.
    - destruct (run_op_effect o0 w) as (_ & _ & H & _).
      destruct (redisAvailable (snd (run_op o0 w))); [|reflexivity].
      rewrite (H eq_refl) in IH. discriminate.
    - reflexivity.
    - destruct (on_signal_frame w) as [_ ->]. exact IH. }
  split; [exact Hf|]. apply run_op_unusable. unfold usable. rewrite Hf.
  reflexivity.
Qed.

(** ** Start-up and shutdown *)

(** X7. [initRedis] never throws, in any state and whatever
    [connect()] does; afterwards a client exists, and the call has not
    turned the flag from false to true. *)
Theorem initRedis_total (w : world) :
  fst (initRedis w) = Normal tt
  /\ redisClient (snd (initRedis w)) <> None
  /\ env (snd (initRedis w)) = env w
  /\ (redisAvailable (snd (initRedis w)) = true -> redisAvailable w = true).
Proof.
  destruct (redisClient w) as [c|] eqn:Hc.
  - rewrite initRedis_again by (rewrite Hc; done). simpl. rewrite Hc. done.
  - rewrite (initRedis_fresh_eq w Hc).
    destruct (begin_connect (link w)) as [[m|] t']; simpl; repeat split;
      try done.
Qed.

(** X6. The signal hook never throws and never changes the flag or the
    client, so it does not close the guard.  Without a client it does
    nothing; with one it sends exactly QUIT and logs one line, the
    success line if the driver answers and the error if it rejects. *)
Theorem signal_hook_effects (w : world) :
  fst (on_signal w) = Normal tt
  /\ redisAvailable (snd (on_signal w)) = redisAvailable w
  /\ redisClient (snd (on_signal w)) = redisClient w
  /\ usable (snd (on_signal w)) = usable w
  /\ match redisClient w with
     | None => snd (on_signal w) = w
     | Some _ =>
         wire (snd (on_signal w)) = wire w ++ [client_send QUIT]
         /\ console (snd (on_signal w)) =
              console w ++ [match fst (exec QUIT (link w)) with
                            | Resolved _ => quit_done
                            | Rejected message => quit_error message
                            end]
     end.
Proof.
  destruct (on_signal_effect w) as (H1 & _ & H2).
  destruct (on_signal_frame w) as [Hc Ha].
  split; [exact H1|]. split; [exact Ha|]. split; [exact Hc|].
  split; [unfold usable; rewrite Ha, Hc; reflexivity|exact H2].
Qed.

(** X9. In every state reached from module load the environment is the
    one the module was loaded with, nothing has been sent while no
    client exists, and once it exists the wire is the calls of
    [initRedis] followed only by commands: at most one [new Redis], one
    [connect()] and one registration per event, in any run. *)
Theorem wire_discipline
  (e : gmap string string) (t : conn) (w : world) :
  reachable (boot e t) w ->
  wire_shape e w
  /\ (count is_new (wire w) <= 1)%nat
  /\ (count is_connect (wire w) <= 1)%nat
  /\ (forall ev, (count (is_on ev) (wire w) <= 1)%nat).
Proof.
  intros Hr. pose proof (reachable_wire_shape e t w Hr) as Hs.
  split; [exact Hs|]. destruct Hs as [_ Hs].
  destruct (redisClient w) as [c|].
  - destruct Hs as [cs ->]. rewrite !count_app.
    rewrite !(count_sends _ cs) by reflexivity.
    repeat split; try reflexivity.
    intros ev. rewrite count_app, (count_sends _ cs) by reflexivity.
    destruct ev; reflexivity.
  - rewrite Hs. repeat split; try (apply Nat.le_0_l).
    intros ev. apply Nat.le_0_l.
Qed.

(** X12. The [client] field of the object [getRedisClient] returns is
    the value [redisClient] had when the object was made, while its
    methods read the module variables when they run: an object made
    before [initRedis] keeps [client] unset after [initRedis] has
    created the client, yet calling through it is calling the module. *)
Theorem handle_client_is_snapshot (w0 : world) :
  exists h0,
    getRedisClient w0 = (Normal h0, w0)
    /\ handle_client h0 = redisClient w0
    /\ (forall (o : op) (w : world), call_on h0 o w = run_op o w)
    /\ (redisClient w0 = None ->
        redisClient (perform act_init w0) <> handle_client h0).
Proof.
  eexists. split; [reflexivity|]. cbn [handle_client].
  split; [reflexivity|]. split.
  - intros o w. rewrite run_op_unfold. destruct o; reflexivity.
  - intros Hc. rewrite Hc. cbn [perform].
    destruct (initRedis_fresh w0 Hc) as (_ & [s ->] & _). discriminate.
Qed.

End Further.

(** ** Configuration *)

Lemma or_default_unset (a : option string) (b : value) :
  a = None \/ a = Some "" -> or_default a b = b.
Proof. intros [-> | ->]; reflexivity. Qed.

Lemma or_default_set (s : string) (b : value) :
  s <> "" -> or_default (Some s) b = VStr s.
Proof.
  intros Hs. unfold or_default.
  destruct (String.eqb s "") eqn:E; [|reflexivity].
  apply String.eqb_eq in E. contradiction.
Qed.

(** X10. The reconnection delay never decreases from one attempt to the
    next, is at least 50 from the first attempt on, never exceeds 2000,
    and equals 2000 exactly from the 40th attempt on. *)
Theorem retryStrategy_monotone_capped (t1 t2 : Z) :
  t1 <= t2 ->
  exists d1 d2,
    retryStrategy t1 = VNum d1 /\ retryStrategy t2 = VNum d2
    /\ d1 <= d2 /\ d2 <= 2000
    /\ (1 <= t1 -> 50 <= d1)
    /\ (d2 = 2000 <-> 40 <= t2).
Proof.
  intros H. unfold retryStrategy. eexists _, _.
  split; [reflexivity|]. split; [reflexivity|]. repeat split; lia.
Qed.

(** X11. The host and the port handed to the driver come from the
    environment when REDIS_HOST / REDIS_PORT are set to a non-empty
    string, the port then being passed as that string; when a variable
    is unset or empty the defaults localhost and the number 6379 are
    used. *)
Theorem redisOptions_defaults (e : gmap string string) :
  (e !! "REDIS_HOST" = None \/ e !! "REDIS_HOST" = Some "" ->
   host (redisOptions e) = VStr "localhost")
  /\ (forall s, e !! "REDIS_HOST" = Some s -> s <> "" ->
      host (redisOptions e) = VStr s)
  /\ (e !! "REDIS_PORT" = None \/ e !! "REDIS_PORT" = Some "" ->
      port (redisOptions e) = VNum 6379)
  /\ (forall s, e !! "REDIS_PORT" = Some s -> s <> "" ->
      port (redisOptions e) = VStr s).
Proof.
  unfold redisOptions. cbn [host port].
  split; [apply or_default_unset|].
  split; [intros s -> Hs; apply or_default_set, Hs|].
  split; [apply or_default_unset|].
  intros s -> Hs. apply or_default_set, Hs.
Qed.

(** * Concrete runs on the stand-in driver *)

Example retryStrategy_first : retryStrategy 1 = VNum 50.
Proof. reflexivity. Qed.

Example retryStrategy_at_cap : retryStrategy 40 = VNum 2000.
Proof. reflexivity. Qed.

Example retryStrategy_past_cap : retryStrategy 1000 = VNum 2000.
Proof. reflexivity. Qed.

Example setex_then_get :
  fst (@run_op sim_transport (op_get "k")
         (snd (@run_op sim_transport (op_setex "k" 60 "v") live)))
  = Normal (VStr "v").
Proof. vm_compute. reflexivity. Qed.

Example mset_then_mget :
  fst (@run_op sim_transport (op_mget ["a"; "b"; "c"]) seeded)
  = Normal (VArr [VStr "1"; VStr "2"; VNull]).
Proof. vm_compute. reflexivity. Qed.

Example never_ready :
  fst (@isAvailable sim_transport (loaded healthy)) = Normal false
  /\ fst (@run_op sim_transport (op_get "session:42") (loaded healthy))
     = Normal VNull
  /\ fst (@run_op sim_transport (op_setex "session:42" 3600 "payload")
            (loaded healthy))
     = Normal (VBool false)
  /\ fst (@run_op sim_transport op_ping (loaded healthy)) = Normal (VBool false).
Proof. vm_compute. repeat split. Qed.

Example get_after_error_event :
  let w := @perform sim_transport (act_emit (ev_error "read ECONNRESET")) live in
  @run_op sim_transport (op_get "k") w = (Normal VNull, w).
Proof. intros w. apply (@run_op_unusable sim_transport). vm_compute. reflexivity. Qed.

Example ping_lower_case :
  fst (@ping (fixed (Resolved (VStr "pong")))
         (started_fixed (Resolved (VStr "pong"))))
  = Normal (VBool false).
Proof. vm_compute. reflexivity. Qed.

Example ping_after_timeout_recovers :
  let w1 := snd (@run_op sim_transport (op_get "k") (started flaky)) in
  let w2 := @perform sim_transport (act_emit ev_ready) w1 in
  redisAvailable w1 = false
  /\ fst (@run_op sim_transport op_ping w2) = Normal (VBool true).
Proof. vm_compute. split; reflexivity. Qed.

Lemma transport_failure_swallowed_witness :
  Forall
    (fun o =>
       fst (@run_op sim_transport o (started flaky)) = Normal (safe_default o)
       /\ redisAvailable (snd (@run_op sim_transport o (started flaky)))
          = false)
    [op_get "session:42"; op_setex "session:42" 3600 "payload";
     op_del "session:42"; op_mget ["a"; "b"]; op_mset [("a", "1")]; op_ping].
Proof.
  assert (Hu : @usable sim_transport (started flaky) = true)
    by (vm_compute; reflexivity).
  assert (H : forall o,
             empty_batch o = false ->
             exec (Transport := sim_transport) (command_of o)
               (link (started flaky))
             = (Rejected "Command timed out", Sim ∅ [] false) ->
             fst (@run_op sim_transport o (started flaky))
             = Normal (safe_default o)
             /\ redisAvailable (snd (@run_op sim_transport o (started flaky)))
                = false).
  { intros o Hb He.
    destruct (@transport_failure_swallowed sim_transport o (started flaky))
      as [_ Hc].
    destruct (Hc _ _ Hu Hb He) as (H1 & H2 & _). split; assumption. }
  repeat (apply List.Forall_cons;
          [apply H; [reflexivity|vm_compute; reflexivity]|]).
  apply List.Forall_nil.
Defined.

Lemma unavailable_returns_safe_default_witness :
  @run_op sim_transport (op_setex "session:42" 3600 "payload") (loaded healthy)
  = (Normal (VBool false), loaded healthy).
Proof.
  apply (@unavailable_returns_safe_default sim_transport
           (op_setex "session:42" 3600 "payload") (loaded healthy)).
  left. reflexivity.
Defined.

(** C3, as stated, fails: before the driver is ready [mget] of one key
    returns the empty sequence. *)
Lemma mget_unavailable_not_aligned :
  ~ @batch_aligned sim_transport ["session:42"] (loaded healthy).
Proof.
  intros (items & Hr & Hl & _). vm_compute in Hr.
  injection Hr as <-. discriminate Hl.
Qed.

Lemma mget_aligned_when_answered_witness :
  fst (@mget sim_transport ["a"; "b"; "c"; "a"] seeded)
  = Normal (VArr [VStr "1"; VStr "2"; VNull; VStr "1"])
  /\ @batch_aligned sim_transport ["a"; "b"; "c"; "a"] seeded.
Proof.
  destruct (@mget_aligned_when_answered sim_transport
              ["a"; "b"; "c"; "a"] seeded
              [VStr "1"; VStr "2"; VNull; VStr "1"]) as (H1 & H2 & _).
  - vm_compute. reflexivity.
  - split; [vm_compute; reflexivity|].
    repeat constructor; vm_compute; reflexivity.
  - split; assumption.
Defined.

Lemma ping_true_iff_pong_witness :
  fst (@ping sim_transport live) = Normal (VBool true).
Proof.
  destruct (@ping_true_iff_pong sim_transport live (VStr "PONG") healthy)
    as [[_ H] _].
  - vm_compute. reflexivity.
  - vm_compute. reflexivity.
  - apply H. reflexivity.
Defined.

Lemma initRedis_idempotent_witness :
  Nat.iter 3 (@perform sim_transport act_init) (loaded healthy)
  = @perform sim_transport act_init (loaded healthy).
Proof.
  destruct (@initRedis_idempotent sim_transport 3 ∅ healthy) as [H _].
  - lia.
  - exact H.
Defined.


Lemma isAvailable_stricter_than_guard_witness :
  fst (@isAvailable sim_transport connected_only) = Normal false
  /\ @contacts sim_transport op_ping connected_only.
Proof.
  destruct (@isAvailable_stricter_than_guard sim_transport ∅ healthy)
    as [_ (_ & Hi & _ & Hc)].
  split; [exact Hi|]. apply Hc. reflexivity.
Defined.

(** ** Concrete runs for the further properties *)

Lemma answered_call_keeps_state_witness :
  fst (@run_op sim_transport (op_get "a") seeded) = Normal (VStr "1")
  /\ console (snd (@run_op sim_transport (op_get "a") seeded)) = console seeded
  /\ redisAvailable (snd (@run_op sim_transport (op_get "a") seeded)) = true.
Proof.
  split; [vm_compute; reflexivity|].
  destruct (@answered_call_keeps_state sim_transport
              (op_get "a") seeded (VStr "1") (link seeded))
    as (_ & Ha & _ & Hc).
  - vm_compute. reflexivity.
  - vm_compute. reflexivity.
  - split; [exact Hc|]. rewrite Ha. vm_compute. reflexivity.
Defined.

Lemma lockout_after_failure_witness :
  let w1 := snd (@run_op sim_transport (op_get "k") (started flaky)) in
  @run_op sim_transport op_ping w1 = (Normal (VBool false), w1)
  /\ @perform_all sim_transport
       (map act_call [op_get "k"; op_ping; op_del "k"]) w1 = w1.
Proof.
  apply (@lockout_after_failure sim_transport (op_get "k") op_ping
           [op_get "k"; op_ping; op_del "k"] (started flaky)
           "Command timed out" (Sim ∅ [] false)).
  - vm_compute. reflexivity.
  - vm_compute. reflexivity.
Defined.

Lemma ping_mismatch_keeps_guard_witness :
  fst (@ping (fixed (Resolved (VStr "pong")))
         (started_fixed (Resolved (VStr "pong")))) = Normal (VBool false)
  /\ redisAvailable
       (snd (@ping (fixed (Resolved (VStr "pong")))
               (started_fixed (Resolved (VStr "pong"))))) = true.
Proof.
  destruct (@ping_mismatch_keeps_guard (fixed (Resolved (VStr "pong")))
              (started_fixed (Resolved (VStr "pong")))
              (VStr "pong") tt (op_get "k")) as (H1 & H2 & _).
  - vm_compute. reflexivity.
  - reflexivity.
  - intros [=].
  - reflexivity.
  - split; assumption.
Defined.

Lemma event_table_witness :
  redisAvailable (@perform sim_transport (act_emit ev_close) live) = false
  /\ console (@perform sim_transport (act_emit ev_close) live)
     = console live ++ [closed_msg].
Proof.
  destruct (@event_table sim_transport ∅ healthy live
              (Client Ready init_listeners) ev_close)
    as (H1 & _ & _ & H4 & _).
  - apply (@reachable_perform_all sim_transport).
  - vm_compute. reflexivity.
  - split; assumption.
Defined.

Lemma ready_reopens_after_failure_witness :
  let w1 := snd (@run_op sim_transport (op_get "k") (started flaky)) in
  @usable sim_transport w1 = false
  /\ @contacts sim_transport op_ping
       (@perform sim_transport (act_emit ev_ready) w1).
Proof.
  destruct (@ready_reopens_after_failure sim_transport ∅ flaky
              (started flaky) (op_get "k") op_ping
              "Command timed out" (Sim ∅ [] false)) as (H1 & H2 & _).
  - apply (@reachable_perform_all sim_transport).
  - vm_compute. reflexivity.
  - vm_compute. reflexivity.
  - reflexivity.
  - split; assumption.
Defined.

Lemma flag_needs_connect_or_ready_witness :
  redisAvailable
    (@perform_all sim_transport
       [act_init; act_emit ev_close; act_call op_ping;
        act_connect_rejected "connect ETIMEDOUT"; act_signal]
       (loaded healthy)) = false.
Proof.
  destruct (@flag_needs_connect_or_ready sim_transport ∅ healthy
              [act_init; act_emit ev_close; act_call op_ping;
               act_connect_rejected "connect ETIMEDOUT"; act_signal]
              op_ping) as [H _].
  - reflexivity.
  - exact H.
Defined.

Lemma wire_discipline_witness :
  (@count is_new (wire seeded) <= 1)%nat
  /\ (@count is_connect (wire seeded) <= 1)%nat.
Proof.
  destruct (@wire_discipline sim_transport ∅ healthy seeded)
    as (_ & H1 & H2 & _).
  - apply (@reach_step sim_transport _ live
             (act_call (op_mset [("a", "1"); ("b", "2")]))).
    apply (@reachable_perform_all sim_transport).
  - split; assumption.
Defined.

Lemma retryStrategy_monotone_capped_witness :
  exists d1 d2,
    retryStrategy 3 = VNum d1 /\ retryStrategy 50 = VNum d2 /\ d1 <= d2.
Proof.
  destruct (retryStrategy_monotone_capped 3 50) as (d1 & d2 & H1 & H2 & H3 & _).
  - lia.
  - exists d1, d2. repeat split; assumption.
Defined.

Lemma redisOptions_defaults_witness :
  host (redisOptions {[ "REDIS_HOST" := "cache.internal" ]})
  = VStr "cache.internal"
  /\ port (redisOptions {[ "REDIS_HOST" := "cache.internal" ]}) = VNum 6379.
Proof.
  destruct (redisOptions_defaults {[ "REDIS_HOST" := "cache.internal" ]})
    as (_ & H2 & H3 & _).
  split.
  - apply H2; [vm_compute; reflexivity|intros [=]].
  - apply H3. left. vm_compute. reflexivity.
Defined.

Lemma handle_client_is_snapshot_witness :
  exists h0,
    @getRedisClient sim_transport (loaded healthy) = (Normal h0, loaded healthy)
    /\ handle_client h0 = None
    /\ redisClient (@perform sim_transport act_init (loaded healthy)) <> None.
Proof.
  destruct (@handle_client_is_snapshot sim_transport (loaded healthy))
    as (h0 & H1 & H2 & _ & H4).
  exists h0. split; [exact H1|]. split; [exact H2|].
  intros E. apply H4; [reflexivity|]. rewrite E, H2. reflexivity.
Defined.

(** ** Concrete runs, tick by tick *)


Example closed_once_delivered :
  let v := @run_ticks sim_transport
             (shutdown_ticks ++ [tick_deliver; tick_deliver]) dawn in
  pending v = []
  /\ redisAvailable (now v) = false
  /\ @connection_state_of sim_transport (now v) = Closed.
Proof. vm_compute. repeat split. Qed.

